(** * cache-set: a set with per-element expiry and its locked wrapper

    A shallow embedding of [set.go] (the unsynchronised expiring set) and
    of [cache.go] (the [Cache] wrapper with its close channel), together
    with the properties of the specification that were checked on it.

    Modelling choices.

    - A Go map value is a reference: either [nil] or a pointer to a table
      that every copy of the value shares.  The tables live in a store
      ([gmap loc (gmap T Z)]); a value of type [set[T]] is a [mapref].
      Methods with receiver [s set[T]] therefore take the reference and
      the store, and return the new store when they mutate.
    - Expiry timestamps are [int64] nanoseconds, embedded in [Z].  The
      source compares them but never does arithmetic on them; the one
      computation, [time.Now().Add(d).UnixNano()], is done by package
      [time], whose result is reduced to 64 bits ([Int64.wrap]).
    - The clock is an input: every function that calls [time.Now()] takes
      the reading [now] (Unix nanoseconds) as its first argument, and
      [ExpireAll], which reads the clock once per key, takes the reading
      for each key.
    - The source holds two files for [Cache]; they differ in the body of
      [CopySet] only ([return c.set] and [return c.set.Copy()]), and both
      bodies are embedded.
    - Runtime panics and a goroutine blocked for ever are outcomes of the
      [result] type.
    - The element type [T] is any type with decidable equality that can
      key a [gmap] (Go's [comparable], floating-point NaN keys aside). *)

From Stdlib Require Import ZArith Lia.
From stdpp Require Import gmap strings list fin_maps.

Local Open Scope Z_scope.

(** ** 64-bit signed integers *)

Module Int64.

Definition min_int : Z := - 2 ^ 63.
Definition max_int : Z := 2 ^ 63 - 1.

Definition in_range (z : Z) : Prop := min_int <= z <= max_int.

(** Two's-complement reduction of a mathematical integer to [int64]. *)
Definition wrap (z : Z) : Z := (z + 2 ^ 63) mod 2 ^ 64 - 2 ^ 63.

End Int64.

(** ** Package [time], as far as the source uses it

    [UnixNanoAfter now d] is [time.Now().Add(d).UnixNano()] when
    [time.Now().UnixNano()] is [now].  [Time.Add] is exact (a [Time] spans
    more than 64 bits of nanoseconds); [UnixNano] keeps the low 64 bits,
    and Go documents its result only for instants an [int64] can hold. *)

Module Time.

Definition UnixNanoAfter (now d : Z) : Z := Int64.wrap (now + d).

End Time.

(** ** Outcomes of a call *)

Inductive panic : Set :=
  | AssignNilMap       (* assignment to entry in nil map *)
  | SendOnClosedChan   (* send on closed channel *)
  | CloseOfClosedChan  (* close of closed channel *)
  | NonPositiveTicker. (* non-positive interval for NewTicker *)

Inductive result (A : Type) : Type :=
  | Ok (a : A)         (* the call returns *)
  | Panics (p : panic) (* the call panics *)
  | Blocks.            (* the calling goroutine blocks for ever *)

Arguments Ok {A} a.
Arguments Panics {A} p.
Arguments Blocks {A}.

#[global] Instance result_bind : MBind result := fun A B k r =>
  match r with
  | Ok a => k a
  | Panics p => Panics p
  | Blocks => Blocks
  end.

(** ** Go's built-in map *)

Definition loc : Set := positive.

(** A map value: [None] is the nil map, [Some l] points to table [l]. *)
Definition mapref : Set := option loc.

Section gomap.
Context {T : Type} `{Countable T}.

(** The table behind a map value.  The nil map reads as an empty one, and
    so does a reference whose table the store does not list. *)
Definition contents (m : mapref) (σ : gmap loc (gmap T Z)) : gmap T Z :=
  match m with
  | None => ∅
  | Some l => default ∅ (σ !! l)
  end.

(** [v, ok := m[k]] *)
Definition map_index (m : mapref) (k : T) (σ : gmap loc (gmap T Z)) : option Z :=
  contents m σ !! k.

(** [len(m)] *)
Definition map_len (m : mapref) (σ : gmap loc (gmap T Z)) : nat :=
  size (contents m σ).

(** The keys that [for k := range m] visits when the body removes at
    most the key it is visiting: each key of the table once, in an
    order the language leaves open. *)
Definition map_range (m : mapref) (σ : gmap loc (gmap T Z)) : list T :=
  (map_to_list (contents m σ)).*1.

(** [delete(m, k)]: a no-op on the nil map. *)
Definition map_delete (m : mapref) (k : T) (σ : gmap loc (gmap T Z))
  : gmap loc (gmap T Z) :=
  match m with
  | None => σ
  | Some l => <[l := delete k (contents m σ)]> σ
  end.

(** [m[k] = v]: panics on the nil map. *)
Definition map_assign (m : mapref) (k : T) (v : Z) (σ : gmap loc (gmap T Z))
  : result (gmap loc (gmap T Z)) :=
  match m with
  | None => Panics AssignNilMap
  | Some l => Ok (<[l := <[k := v]> (contents m σ)]> σ)
  end.

(** [make(map[T]int64)]: a new, empty table. *)
Definition make_map (σ : gmap loc (gmap T Z)) : gmap loc (gmap T Z) * mapref :=
  let l := fresh (dom σ) in (<[l := ∅]> σ, Some l).

End gomap.

(** ** set.go: the expiring set *)

Module set.
Section methods.
Context {T : Type} `{Countable T}.

(** [func newSet[T comparable]() set[T]] *)
Definition newSet (σ : gmap loc (gmap T Z)) : gmap loc (gmap T Z) * mapref :=
  make_map σ.

(** [func (s set[T]) Expired(elem T) bool] *)
Definition Expired (now : Z) (s : mapref) (elem : T) (σ : gmap loc (gmap T Z)) : bool :=
  match map_index s elem σ with
  | None => false
  | Some expires =>
      if (0 <? expires) && (expires <? now) then true else false
  end.

(** [func (s set[T]) Delete(elem T)] *)
Definition Delete (s : mapref) (elem : T) (σ : gmap loc (gmap T Z))
  : gmap loc (gmap T Z) :=
  map_delete s elem σ.

(** [func (s set[T]) Expire(elem T)] *)
Definition Expire (now : Z) (s : mapref) (elem : T) (σ : gmap loc (gmap T Z))
  : gmap loc (gmap T Z) :=
  if Expired now s elem σ then Delete s elem σ else σ.

(** [func (s set[T]) ExpireAll()].  Every turn of the loop reads the
    clock anew, inside [Expired]: [clock k] is the reading taken when the
    loop visits key [k]. *)
Definition ExpireAll (clock : T -> Z) (s : mapref) (σ : gmap loc (gmap T Z))
  : gmap loc (gmap T Z) :=
  foldl (fun σ' k => Expire (clock k) s k σ') σ (map_range s σ).

(** [func (s set[T]) ToSlice() []T] *)
Definition ToSlice (s : mapref) (σ : gmap loc (gmap T Z)) : list T :=
  foldl (fun slice k => slice ++ [k]) [] (map_range s σ).

(** [func (s set[T]) Add(elem T, duration time.Duration)] *)
Definition Add (now : Z) (s : mapref) (elem : T) (duration : Z)
    (σ : gmap loc (gmap T Z)) : result (gmap loc (gmap T Z)) :=
  let expires :=
    if 0 <? duration then Time.UnixNanoAfter now duration else 0 in
  map_assign s elem expires σ.

(** [func (s set[T]) Clear()] *)
Definition Clear (s : mapref) (σ : gmap loc (gmap T Z)) : gmap loc (gmap T Z) :=
  foldl (fun σ' k => map_delete s k σ') σ (map_range s σ).

(** [func (s set[T]) Contains(elem T) bool] *)
Definition Contains (s : mapref) (elem : T) (σ : gmap loc (gmap T Z)) : bool :=
  match map_index s elem σ with
  | None => false
  | Some _ => true
  end.

(** [func (s set[T]) Len() int] *)
Definition Len (s : mapref) (σ : gmap loc (gmap T Z)) : nat :=
  map_len s σ.

End methods.
End set.

(** The test that [Expired] applies to the outcome of its map read, for
    use in statements. *)
Definition expired_at (now : Z) (o : option Z) : bool :=
  match o with
  | None => false
  | Some expires => (0 <? expires) && (expires <? now)
  end.

(** ** cache.go: the locked wrapper

    The state of one [Cache]: the store of map tables, the two fields of
    the struct, and the sweeper goroutine started by [New].  Calls are
    taken one at a time, so the embedded [RWMutex] is free whenever a
    method starts and is not part of the state.  The sweeper is followed
    in its reaction to the close signal only. *)

Inductive chan : Set :=
  | ChanOpen
  | ChanClosed.

(** The goroutine of [New]: parked in its [select], or returned. *)
Inductive goroutine : Set :=
  | Selecting
  | Returned.

Module Cache.
Section methods.
Context {T : Type} `{Countable T}.

Record world : Type := World {
  heap : gmap loc (gmap T Z);  (* the tables of all maps *)
  c_set : mapref;              (* field [set] *)
  c_close : chan;              (* field [close], an unbuffered channel *)
  sweeper : goroutine
}.

Definition with_heap (w : world) (σ : gmap loc (gmap T Z)) : world :=
  World σ (c_set w) (c_close w) (sweeper w).

(** [func New[T comparable](cleanInterval time.Duration) *Cache[T]];
    [time.NewTicker] panics on a non-positive interval. *)
Definition New (cleanInterval : Z) (σ : gmap loc (gmap T Z)) : result world :=
  let '(σ', s) := set.newSet σ in
  if cleanInterval <=? 0 then Panics NonPositiveTicker
  else Ok (World σ' s ChanOpen Selecting).

(** [c.close <- struct{}{}] on the unbuffered channel: the send needs the
    sweeper to receive, which then returns. *)
Definition chan_send (w : world) : result world :=
  match c_close w with
  | ChanClosed => Panics SendOnClosedChan
  | ChanOpen =>
      match sweeper w with
      | Selecting => Ok (World (heap w) (c_set w) ChanOpen Returned)
      | Returned => Blocks
      end
  end.

(** [close(c.close)] *)
Definition chan_close (w : world) : result world :=
  match c_close w with
  | ChanClosed => Panics CloseOfClosedChan
  | ChanOpen => Ok (World (heap w) (c_set w) ChanClosed (sweeper w))
  end.

(** [func (c *Cache[T]) Close()] *)
Definition Close (w : world) : result world :=
  w1 ← chan_send w;
  w2 ← chan_close w1;
  Ok (World (heap w2) None (c_close w2) (sweeper w2)).

(** [func (c *Cache[T]) CopySet() map[T]int64], in the file whose body
    is [return c.set]. *)
Definition CopySet (w : world) : mapref := c_set w.

(** Modelled from the spec: [set.Copy], which the other [CopySet] calls
    and set_test.go exercises, but which set.go does not define.  It
    returns an independent snapshot mapping: a new table holding the
    entries of [s]. *)
Definition Copy (s : mapref) (σ : gmap loc (gmap T Z))
  : gmap loc (gmap T Z) * mapref :=
  let l := fresh (dom σ) in (<[l := contents s σ]> σ, Some l).

(** [func (c *Cache[T]) CopySet() map[T]int64], in the file whose body
    is [return c.set.Copy()]. *)
Definition CopySet_Copy (w : world) : world * mapref :=
  let '(σ', m) := Copy (c_set w) (heap w) in (with_heap w σ', m).

(** [func (c *Cache[T]) Delete(elem T)] *)
Definition Delete (elem : T) (w : world) : world :=
  with_heap w (set.Delete (c_set w) elem (heap w)).

(** [func (c *Cache[T]) Len() int] *)
Definition Len (w : world) : nat := set.Len (c_set w) (heap w).

(** [func (c *Cache[T]) Add(elem T, duration time.Duration)] *)
Definition Add (now : Z) (elem : T) (duration : Z) (w : world) : result world :=
  σ' ← set.Add now (c_set w) elem duration (heap w);
  Ok (with_heap w σ').

(** [func (c *Cache[T]) Contains(elem T) bool] *)
Definition Contains (elem : T) (w : world) : bool :=
  set.Contains (c_set w) elem (heap w).

(** [func (c *Cache[T]) ToSlice() []T] *)
Definition ToSlice (w : world) : list T := set.ToSlice (c_set w) (heap w).

(** [func (c *Cache[T]) Clear()] *)
Definition Clear (w : world) : world :=
  with_heap w (set.Clear (c_set w) (heap w)).

(** [func (c *Cache[T]) Expire(elem T)] *)
Definition Expire (now : Z) (elem : T) (w : world) : world :=
  with_heap w (set.Expire now (c_set w) elem (heap w)).

(** [func (c *Cache[T]) ExpireAll()] *)
Definition ExpireAll (clock : T -> Z) (w : world) : world :=
  with_heap w (set.ExpireAll clock (c_set w) (heap w)).

(** [func (c *Cache[T]) Exists(elem T) bool] *)
Definition Exists (elem : T) (w : world) : bool :=
  set.Contains (c_set w) elem (heap w).

(** *** Vocabulary for the statements *)

(** The state [New] leaves: channel open, sweeper waiting in [select]. *)
Definition running (w : world) : Prop :=
  c_close w = ChanOpen ∧ sweeper w = Selecting.

(** The table of field [set], when there is one, is allocated. *)
Definition allocated (w : world) : Prop :=
  ∀ l, c_set w = Some l -> l ∈ dom (heap w).

(** A call of a mutating method, with the clock readings it sees. *)
Inductive call : Type :=
  | CallAdd (now : Z) (elem : T) (duration : Z)
  | CallDelete (elem : T)
  | CallExpire (now : Z) (elem : T)
  | CallExpireAll (clock : T -> Z)
  | CallClear
  | CallClose.

Definition exec (c : call) (w : world) : result world :=
  match c with
  | CallAdd now elem duration => Add now elem duration w
  | CallDelete elem => Ok (Delete elem w)
  | CallExpire now elem => Ok (Expire now elem w)
  | CallExpireAll clock => Ok (ExpireAll clock w)
  | CallClear => Ok (Clear w)
  | CallClose => Close w
  end.

(** A sequence of calls, stopping at the first that does not return. *)
Fixpoint run (cs : list call) (w : world) : result world :=
  match cs with
  | [] => Ok w
  | c :: cs' => w' ← exec c w; run cs' w'
  end.

End methods.

Arguments world T {_ _}.
Arguments call T : clear implicits.

End Cache.

(** The calls that only remove: every [call] but [Add] and [Close]. *)
Definition removal_call {T : Type} (c : Cache.call T) : bool :=
  match c with
  | Cache.CallAdd _ _ _ | Cache.CallClose => false
  | _ => true
  end.

(** A call other than [Close]. *)
Definition data_call {T : Type} (c : Cache.call T) : bool :=
  match c with
  | Cache.CallClose => false
  | _ => true
  end.

(** ** cache.go with its lock

    The embedded [sync.RWMutex] and the methods as they take it.  A lock
    operation that has to wait has outcome [Blocks]: the statements below
    use it where the holder never releases.  [Unlock] and [RUnlock] are
    only ever run by a holder, after its own [Lock] or [RLock]. *)

Inductive rwmutex : Set :=
  | MuFree
  | MuWriter              (* write-locked *)
  | MuReaders (n : nat).  (* read-locked by [S n] readers *)

Module Guarded.
Section methods.
Context {T : Type} `{Countable T}.

Record state : Type := State {
  mu : rwmutex;            (* the embedded [sync.RWMutex] *)
  cache : Cache.world T
}.

(** [c.Lock()] *)
Definition Lock (g : state) : result state :=
  match mu g with
  | MuFree => Ok (State MuWriter (cache g))
  | _ => Blocks
  end.

(** [c.Unlock()] *)
Definition Unlock (g : state) : state := State MuFree (cache g).

(** [c.RLock()] *)
Definition RLock (g : state) : result state :=
  match mu g with
  | MuFree => Ok (State (MuReaders 0) (cache g))
  | MuReaders n => Ok (State (MuReaders (S n)) (cache g))
  | MuWriter => Blocks
  end.

(** [c.RUnlock()] *)
Definition RUnlock (g : state) : state :=
  match mu g with
  | MuReaders (S n) => State (MuReaders n) (cache g)
  | _ => State MuFree (cache g)
  end.

(** [c.Lock(); defer c.Unlock(); body] *)
Definition write_locked (body : Cache.world T -> result (Cache.world T))
    (g : state) : result state :=
  g1 ← Lock g;
  w' ← body (cache g1);
  Ok (Unlock (State (mu g1) w')).

(** [c.RLock(); defer c.RUnlock(); return body] *)
Definition read_locked {A : Type} (body : Cache.world T -> A)
    (g : state) : result (A * state) :=
  g1 ← RLock g;
  Ok (body (cache g1), RUnlock g1).

Definition CopySet (g : state) : result (mapref * state) :=
  read_locked Cache.CopySet g.

Definition Delete (elem : T) (g : state) : result state :=
  write_locked (fun w => Ok (Cache.Delete elem w)) g.

Definition Len (g : state) : result (nat * state) :=
  read_locked Cache.Len g.

Definition Add (now : Z) (elem : T) (duration : Z) (g : state) : result state :=
  write_locked (Cache.Add now elem duration) g.

Definition Contains (elem : T) (g : state) : result (bool * state) :=
  read_locked (Cache.Contains elem) g.

Definition ToSlice (g : state) : result (list T * state) :=
  read_locked Cache.ToSlice g.

Definition Clear (g : state) : result state :=
  write_locked (fun w => Ok (Cache.Clear w)) g.

Definition Expire (now : Z) (elem : T) (g : state) : result state :=
  write_locked (fun w => Ok (Cache.Expire now elem w)) g.

Definition ExpireAll (clock : T -> Z) (g : state) : result state :=
  write_locked (fun w => Ok (Cache.ExpireAll clock w)) g.

Definition Exists (elem : T) (g : state) : result (bool * state) :=
  read_locked (Cache.Exists elem) g.

(** The [case <-ticker.C] branch of the goroutine of [New]:
    [c.Lock(); c.ExpireAll(); c.Unlock()].  On a [*Cache[T]] the selector
    [c.ExpireAll] is the method of [Cache] (depth 0), not the one promoted
    from the embedded [set] (depth 1). *)
Definition sweeper_tick (clock : T -> Z) (g : state) : result state :=
  g1 ← Lock g;
  g2 ← ExpireAll clock g1;
  Ok (Unlock g2).

End methods.

Arguments state T {_ _}.

End Guarded.

(** ** Example states

    A store with one table, [{"foo": 5}], at location 1, and a running
    cache whose field [set] points to it. *)

Definition store_foo : gmap loc (gmap string Z) :=
  {[ 1%positive := {[ "foo" := 5 ]} ]}.

Definition cache_foo : Cache.world string :=
  Cache.World store_foo (Some 1%positive) ChanOpen Selecting.

(** The same cache with its mutex free. *)
Definition guarded_foo : Guarded.state string :=
  Guarded.State MuFree cache_foo.

(** The clock readings and the two [Add]s of the tests in set_test.go. *)

Definition second : Z := 1000000000.

Definition t0 : Z := 1700000000 * second.

Definition after_adds : result (gmap loc (gmap Z Z)) :=
  let '(σ, s) := set.newSet ∅ in
  σ1 ← set.Add t0 s 1 (1 * second) σ;
  set.Add t0 s 2 (60 * second) σ1.

(** * Properties *)

(** ** Arithmetic of the clock *)

Lemma wrap_in_range z : Int64.in_range z -> Int64.wrap z = z.
Proof.
  unfold Int64.in_range, Int64.min_int, Int64.max_int, Int64.wrap.
  intros Hz. rewrite Z.mod_small; lia.
Qed.

Lemma wrap_overflow z :
  Int64.max_int < z -> z <= 2 * Int64.max_int -> Int64.wrap z < 0.
Proof.
  unfold Int64.max_int, Int64.wrap. intros Hlo Hhi.
  replace (z + 2 ^ 63) with ((z - 2 ^ 63) + 1 * 2 ^ 64) by lia.
  rewrite Z.mod_add by lia. rewrite Z.mod_small; lia.
Qed.

Lemma UnixNanoAfter_exact now d :
  Int64.in_range (now + d) -> Time.UnixNanoAfter now d = now + d.
Proof. apply wrap_in_range. Qed.

(** A timestamp computed for a positive duration is never a positive
    value that lies before the instant it was computed at. *)
Lemma UnixNanoAfter_not_past now d now' :
  Int64.in_range now -> Int64.in_range d -> 0 < d -> now' <= now + d ->
  (0 <? Time.UnixNanoAfter now d) && (Time.UnixNanoAfter now d <? now') = false.
Proof.
  intros Hnow Hd Hpos Hle.
  destruct (Z_le_gt_dec (now + d) Int64.max_int) as [Hfit | Hover].
  - rewrite UnixNanoAfter_exact.
    + apply andb_false_iff. right. apply Z.ltb_ge. lia.
    + unfold Int64.in_range in *. lia.
  - assert (Time.UnixNanoAfter now d < 0) as Hneg.
    { apply wrap_overflow; unfold Int64.in_range in *; lia. }
    apply andb_false_iff. left. apply Z.ltb_ge. lia.
Qed.

(** ** The built-in map *)

Section gomap_facts.
Context {T : Type} `{Countable T}.
Implicit Types (σ : gmap loc (gmap T Z)) (s m : mapref) (e f k : T).

Lemma contents_map_delete s k σ :
  contents s (map_delete s k σ) = delete k (contents s σ).
Proof.
  destruct s as [l|]; simpl.
  - by rewrite lookup_insert_eq.
  - by rewrite delete_empty.
Qed.

Lemma contents_map_delete_other s m k σ :
  s ≠ m -> contents m (map_delete s k σ) = contents m σ.
Proof.
  intros Hne. destruct s as [l|], m as [l'|]; simpl; try done.
  rewrite lookup_insert_ne; [done | congruence].
Qed.

Lemma map_assign_Some l k v σ :
  map_assign (Some l) k v σ = Ok (<[l := <[k := v]> (contents (Some l) σ)]> σ).
Proof. reflexivity. Qed.

Lemma contents_insert_same l (t : gmap T Z) σ :
  contents (Some l) (<[l := t]> σ) = t.
Proof. simpl. by rewrite lookup_insert_eq. Qed.

Lemma contents_insert_other l m (t : gmap T Z) σ :
  m ≠ Some l -> contents m (<[l := t]> σ) = contents m σ.
Proof.
  intros Hne. destruct m as [l'|]; simpl; [|done].
  rewrite lookup_insert_ne; [done | congruence].
Qed.

Lemma elem_of_map_range s k σ :
  k ∈ map_range s σ ↔ is_Some (contents s σ !! k).
Proof.
  unfold map_range. rewrite list_elem_of_fmap. split.
  - intros [[k' v] [-> Hin]]. apply elem_of_map_to_list in Hin. by exists v.
  - intros [v Hv]. exists (k, v). split; [done|]. by apply elem_of_map_to_list.
Qed.

Lemma NoDup_map_range s σ : NoDup (map_range s σ).
Proof. apply NoDup_fst_map_to_list. Qed.

Lemma length_map_range s σ : length (map_range s σ) = map_len s σ.
Proof.
  unfold map_range, map_len. by rewrite length_fmap, length_map_to_list.
Qed.

End gomap_facts.

(** ** The expiring set *)

Section set_facts.
Context {T : Type} `{Countable T}.
Implicit Types (σ : gmap loc (gmap T Z)) (s m : mapref) (e f k : T).

Lemma Expired_expired_at now s e σ :
  set.Expired now s e σ = expired_at now (contents s σ !! e).
Proof.
  unfold set.Expired, map_index, expired_at.
  destruct (contents s σ !! e) as [t|]; [|done].
  by destruct ((0 <? t) && (t <? now)).
Qed.

Lemma expired_at_true now o :
  expired_at now o = true ↔ ∃ t, o = Some t ∧ 0 < t ∧ t < now.
Proof.
  destruct o as [t|]; simpl.
  - rewrite andb_true_iff, !Z.ltb_lt. split.
    + intros [? ?]. by exists t.
    + intros (t' & [= <-] & ? & ?). done.
  - split; [done | by intros (? & ? & _)].
Qed.

Lemma Contains_is_Some s e σ :
  set.Contains s e σ = true ↔ is_Some (contents s σ !! e).
Proof.
  unfold set.Contains, map_index.
  destruct (contents s σ !! e) as [t|].
  - split; [by eexists | done].
  - split; [done | by intros [? ?]].
Qed.

Lemma contents_Delete s e σ :
  contents s (set.Delete s e σ) = delete e (contents s σ).
Proof. apply contents_map_delete. Qed.

Lemma contents_Expire now s e σ :
  contents s (set.Expire now s e σ) =
  if set.Expired now s e σ then delete e (contents s σ) else contents s σ.
Proof.
  unfold set.Expire. destruct (set.Expired now s e σ); [|done].
  apply contents_Delete.
Qed.

(** [Expire] on [k] seen from key [e]. *)
Lemma lookup_Expire now s k e σ :
  contents s (set.Expire now s k σ) !! e =
  if decide (k = e)
  then (if expired_at now (contents s σ !! e) then None else contents s σ !! e)
  else contents s σ !! e.
Proof.
  rewrite contents_Expire, Expired_expired_at.
  case_decide as Hke.
  - subst k. destruct (expired_at now (contents s σ !! e)); [|done].
    apply lookup_delete_eq.
  - destruct (expired_at now (contents s σ !! k)); [|done].
    by apply lookup_delete_ne.
Qed.

(** The loop of [ExpireAll] over any list of keys. *)
Lemma lookup_Expire_loop (clock : T -> Z) s e (ks : list T) σ :
  contents s (foldl (fun σ' k => set.Expire (clock k) s k σ') σ ks) !! e =
  if decide (e ∈ ks)
  then (if expired_at (clock e) (contents s σ !! e) then None else contents s σ !! e)
  else contents s σ !! e.
Proof.
  revert σ. induction ks as [|k ks IH]; intros σ; cbn [foldl].
  - case_decide as Hin; [by apply elem_of_nil in Hin | done].
  - rewrite IH, lookup_Expire.
    destruct (decide (k = e)) as [->|Hke].
    + rewrite (decide_True (P := e ∈ e :: ks)) by apply list_elem_of_here.
      destruct (expired_at (clock e) (contents s σ !! e)) eqn:Hexp.
      * simpl. by case_decide.
      * rewrite Hexp. by case_decide.
    + destruct (decide (e ∈ ks)) as [Hin|Hin].
      * rewrite decide_True; [done | by apply list_elem_of_further].
      * rewrite decide_False; [done|].
        intros [?|?]%elem_of_cons; congruence.
Qed.

Lemma lookup_ExpireAll (clock : T -> Z) s e σ :
  contents s (set.ExpireAll clock s σ) !! e =
  if set.Expired (clock e) s e σ then None else contents s σ !! e.
Proof.
  unfold set.ExpireAll. rewrite lookup_Expire_loop, Expired_expired_at.
  case_decide as Hin; [done|].
  rewrite elem_of_map_range, <- eq_None_not_Some in Hin.
  by rewrite Hin.
Qed.

Lemma ToSlice_loop (ks acc : list T) :
  foldl (fun slice k => slice ++ [k]) acc ks = acc ++ ks.
Proof.
  revert acc. induction ks as [|k ks IH]; intros acc; simpl.
  - by rewrite app_nil_r.
  - by rewrite IH, <- app_assoc.
Qed.

Lemma ToSlice_map_range s σ : set.ToSlice s σ = map_range s σ.
Proof. unfold set.ToSlice. by rewrite ToSlice_loop. Qed.

Lemma contents_Add now l e d σ :
  ∃ σ', set.Add now (Some l) e d σ = Ok σ' ∧
    contents (Some l) σ' =
      <[e := if 0 <? d then Time.UnixNanoAfter now d else 0]> (contents (Some l) σ) ∧
    ∀ m, m ≠ Some l -> contents m σ' = contents m σ.
Proof.
  unfold set.Add. rewrite map_assign_Some. eexists. split; [done|]. split.
  - apply contents_insert_same.
  - intros m Hm. by apply contents_insert_other.
Qed.

(** The loop of [Clear] over any list of keys. *)
Lemma lookup_Clear_loop s e (ks : list T) σ :
  contents s (foldl (fun σ' k => map_delete s k σ') σ ks) !! e =
  if decide (e ∈ ks) then None else contents s σ !! e.
Proof.
  revert σ. induction ks as [|k ks IH]; intros σ; cbn [foldl].
  - case_decide as Hin; [by apply elem_of_nil in Hin | done].
  - rewrite IH, contents_map_delete.
    destruct (decide (e ∈ ks)) as [Hin|Hin].
    + rewrite decide_True; [done | by apply list_elem_of_further].
    + destruct (decide (k = e)) as [->|Hke].
      * rewrite decide_True by apply list_elem_of_here. apply lookup_delete_eq.
      * rewrite decide_False; [by apply lookup_delete_ne|].
        intros [?|?]%elem_of_cons; congruence.
Qed.

Lemma contents_Clear s σ : contents s (set.Clear s σ) = ∅.
Proof.
  apply map_eq. intros e. unfold set.Clear.
  rewrite lookup_Clear_loop, lookup_empty.
  case_decide as Hin; [done|].
  by rewrite elem_of_map_range, <- eq_None_not_Some in Hin.
Qed.

End set_facts.

(** ** The claims on the set *)

Section set_claims.
Context {T : Type} `{Countable T}.
Implicit Types (σ : gmap loc (gmap T Z)) (s m : mapref) (e f k : T).

(** C3. [Contains(e)] is true exactly when [e] is a key of the backing
    mapping, whatever its timestamp; in particular it is still true for
    an entry whose expiry has passed (for which [Expired] is true) as
    long as nothing has removed it. *)
Theorem Contains_key_presence s e σ :
  (set.Contains s e σ = true ↔ is_Some (contents s σ !! e)) ∧
  (∀ now t, contents s σ !! e = Some t -> 0 < t -> t < now ->
     set.Expired now s e σ = true ∧ set.Contains s e σ = true).
Proof.
  split; [apply Contains_is_Some|].
  intros now t Ht Hpos Hpast. split.
  - rewrite Expired_expired_at. apply expired_at_true. by exists t.
  - apply Contains_is_Some. by exists t.
Qed.

(** C4. [Expired(e)] is true exactly when [e] is present with a strictly
    positive expiry that is strictly before the current time; it is
    false for an absent [e]; and after [Add(e, d)] with [d <= 0] it is
    false at every time. *)
Theorem Expired_spec now s l e σ :
  (set.Expired now s e σ = true ↔
     ∃ t, contents s σ !! e = Some t ∧ 0 < t ∧ t < now) ∧
  (contents s σ !! e = None -> set.Expired now s e σ = false) ∧
  (∀ d now0, d <= 0 ->
     ∃ σ', set.Add now0 (Some l) e d σ = Ok σ' ∧
           contents (Some l) σ' !! e = Some 0 ∧
           set.Expired now (Some l) e σ' = false).
Proof.
  split; [|split].
  - rewrite Expired_expired_at. apply expired_at_true.
  - intros Hnone. by rewrite Expired_expired_at, Hnone.
  - intros d now0 Hd.
    destruct (contents_Add now0 l e d σ) as (σ' & Hadd & Hc & _).
    exists σ'. split; [done|].
    assert ((0 <? d) = false) as Hltb by (apply Z.ltb_ge; lia).
    rewrite Hltb in Hc.
    assert (contents (Some l) σ' !! e = Some 0) as Hlk
      by (rewrite Hc; apply lookup_insert_eq).
    split; [done|]. by rewrite Expired_expired_at, Hlk.
Qed.

(** C5, amended.  [Add(e, d)] inserts or overwrites the entry of [e]:
    it stores 0 when [d <= 0] and the 64-bit timestamp of [now + d] when
    [d > 0], which is the number [now + d] itself whenever an [int64]
    holds it; adding [e] again gives the same state as the last [Add]
    alone; and right after [Add(e, d)] with [d > 0], [Contains(e)] is
    true and [Expired(e)] is false. *)
Theorem Add_spec now l e d σ :
  Int64.in_range now -> Int64.in_range d ->
  ∃ σ', set.Add now (Some l) e d σ = Ok σ' ∧
    (d <= 0 -> contents (Some l) σ' = <[e := 0]> (contents (Some l) σ)) ∧
    (0 < d -> contents (Some l) σ' =
              <[e := Time.UnixNanoAfter now d]> (contents (Some l) σ)) ∧
    (0 < d -> now + d <= Int64.max_int ->
       contents (Some l) σ' = <[e := now + d]> (contents (Some l) σ)) ∧
    (∀ now2 d2, set.Add now2 (Some l) e d2 σ' = set.Add now2 (Some l) e d2 σ) ∧
    (0 < d -> set.Contains (Some l) e σ' = true ∧
              set.Expired now (Some l) e σ' = false).
Proof.
  intros Hnow Hd.
  destruct (contents_Add now l e d σ) as (σ' & Hadd & Hc & _).
  exists σ'. split; [done|].
  assert (0 < d -> contents (Some l) σ' =
            <[e := Time.UnixNanoAfter now d]> (contents (Some l) σ)) as Hpos.
  { intros Hlt. apply Z.ltb_lt in Hlt. by rewrite Hlt in Hc. }
  repeat split.
  - intros Hle. assert ((0 <? d) = false) as Hltb by (apply Z.ltb_ge; lia).
    by rewrite Hltb in Hc.
  - done.
  - intros Hlt Hfit. rewrite Hpos by done.
    rewrite UnixNanoAfter_exact; [done|].
    unfold Int64.in_range in *. lia.
  - intros now2 d2. unfold set.Add in Hadd |- *.
    rewrite map_assign_Some in Hadd. injection Hadd as <-.
    rewrite !map_assign_Some, contents_insert_same.
    by rewrite !insert_insert_eq.
  - apply Contains_is_Some. rewrite Hpos by done.
    rewrite lookup_insert_eq. by eexists.
  - rewrite Expired_expired_at, Hpos by done.
    rewrite lookup_insert_eq. simpl.
    apply UnixNanoAfter_not_past; [done | done | done | lia].
Qed.

(** C6. [ExpireAll] removes exactly the elements for which [Expired] is
    true when the sweep tests them: an entry holding the sentinel 0 or an
    expiry that has not passed stays with its timestamp, and an entry
    whose positive expiry is strictly before the time of the call (which
    no reading of the sweep precedes) is deleted. *)
Theorem ExpireAll_spec (clock : T -> Z) s e σ :
  contents s (set.ExpireAll clock s σ) !! e =
    (if set.Expired (clock e) s e σ then None else contents s σ !! e) ∧
  (∀ t, contents s σ !! e = Some t -> t = 0 ∨ clock e <= t ->
     contents s (set.ExpireAll clock s σ) !! e = Some t) ∧
  (∀ now t, now <= clock e ->
     contents s σ !! e = Some t -> 0 < t -> t < now ->
     contents s (set.ExpireAll clock s σ) !! e = None).
Proof.
  split; [apply lookup_ExpireAll|]. split.
  - intros t Ht Hkeep. rewrite lookup_ExpireAll, Expired_expired_at, Ht.
    simpl. destruct (andb_false_iff (0 <? t) (t <? clock e)) as [_ Hf].
    rewrite Hf; [done|].
    destruct Hkeep as [-> | Hle]; [by left | right; apply Z.ltb_ge; lia].
  - intros now t Hclock Ht Hpos Hpast. rewrite lookup_ExpireAll.
    assert (set.Expired (clock e) s e σ = true) as ->; [|done].
    rewrite Expired_expired_at. apply expired_at_true. exists t.
    split; [done|]. lia.
Qed.

(** C7. [Len()] is the number of elements of [ToSlice()], and
    [ToSlice()] lists exactly the keys of the mapping, each once. *)
Theorem Len_ToSlice s σ :
  set.Len s σ = length (set.ToSlice s σ) ∧
  NoDup (set.ToSlice s σ) ∧
  (∀ e, e ∈ set.ToSlice s σ ↔ is_Some (contents s σ !! e)).
Proof.
  rewrite ToSlice_map_range. split; [|split].
  - unfold set.Len. by rewrite length_map_range.
  - apply NoDup_map_range.
  - intros e. apply elem_of_map_range.
Qed.

(** C10. [Add(e, d)], [Delete(e)] and [Expire(e)] leave the membership
    and the stored expiry of every other element [f] as they were. *)
Theorem per_element_frame now s l e f d σ :
  e ≠ f ->
  (∃ σ', set.Add now (Some l) e d σ = Ok σ' ∧
         contents (Some l) σ' !! f = contents (Some l) σ !! f ∧
         set.Contains (Some l) f σ' = set.Contains (Some l) f σ) ∧
  (contents s (set.Delete s e σ) !! f = contents s σ !! f ∧
   set.Contains s f (set.Delete s e σ) = set.Contains s f σ) ∧
  (contents s (set.Expire now s e σ) !! f = contents s σ !! f ∧
   set.Contains s f (set.Expire now s e σ) = set.Contains s f σ).
Proof.
  intros Hef.
  assert (∀ m σ1 σ2, contents m σ1 !! f = contents m σ2 !! f ->
            set.Contains m f σ1 = set.Contains m f σ2) as Hcont.
  { intros m σ1 σ2 Heq. unfold set.Contains, map_index. by rewrite Heq. }
  split; [|split].
  - destruct (contents_Add now l e d σ) as (σ' & Hadd & Hc & _).
    exists σ'. split; [done|].
    assert (contents (Some l) σ' !! f = contents (Some l) σ !! f) as Hlk
      by (rewrite Hc; by apply lookup_insert_ne).
    split; [done | by apply Hcont].
  - assert (contents s (set.Delete s e σ) !! f = contents s σ !! f) as Hlk
      by (rewrite contents_Delete; by apply lookup_delete_ne).
    split; [done | by apply Hcont].
  - assert (contents s (set.Expire now s e σ) !! f = contents s σ !! f) as Hlk
      by (rewrite lookup_Expire; by rewrite decide_False).
    split; [done | by apply Hcont].
Qed.

End set_claims.

(** ** The wrapper *)

Section cache_facts.
Context {T : Type} `{Countable T}.
Implicit Types (σ : gmap loc (gmap T Z)) (s m : mapref) (e f k : T).
Implicit Types (w : Cache.world T).

Lemma with_heap_id w : Cache.with_heap w (Cache.heap w) = w.
Proof. by destruct w. Qed.

(** *** Methods of the set write to the table of their receiver only *)

Lemma contents_Expire_other now s m e σ :
  s ≠ m -> contents m (set.Expire now s e σ) = contents m σ.
Proof.
  intros Hne. unfold set.Expire, set.Delete.
  destruct (set.Expired now s e σ); [|done].
  by apply contents_map_delete_other.
Qed.

Lemma contents_ExpireAll_other (clock : T -> Z) s m σ :
  s ≠ m -> contents m (set.ExpireAll clock s σ) = contents m σ.
Proof.
  intros Hne. unfold set.ExpireAll.
  generalize (map_range s σ) as ks. intros ks. revert σ.
  induction ks as [|k ks IH]; intros σ; cbn [foldl]; [done|].
  rewrite IH. by apply contents_Expire_other.
Qed.

Lemma contents_Clear_other s m σ :
  s ≠ m -> contents m (set.Clear s σ) = contents m σ.
Proof.
  intros Hne. unfold set.Clear.
  generalize (map_range s σ) as ks. intros ks. revert σ.
  induction ks as [|k ks IH]; intros σ; cbn [foldl]; [done|].
  rewrite IH. by apply contents_map_delete_other.
Qed.

Lemma contents_Add_other now s m e d σ σ' :
  s ≠ m -> set.Add now s e d σ = Ok σ' -> contents m σ' = contents m σ.
Proof.
  intros Hne Hadd. destruct s as [l|]; [|done].
  destruct (contents_Add now l e d σ) as (σ'' & Hadd' & _ & Hother).
  rewrite Hadd in Hadd'. injection Hadd' as <-. apply Hother. congruence.
Qed.

(** *** The nil set *)

Lemma Expire_nil now e σ : set.Expire now None e σ = σ.
Proof. reflexivity. Qed.

Lemma ExpireAll_nil (clock : T -> Z) σ : set.ExpireAll clock None σ = σ.
Proof. reflexivity. Qed.

Lemma Clear_nil σ : set.Clear None σ = σ.
Proof. reflexivity. Qed.

(** *** Close *)

Lemma Close_running w :
  Cache.running w ->
  Cache.Close w = Ok (Cache.World (Cache.heap w) None ChanClosed Returned).
Proof.
  destruct w as [σ s c g]. intros [Hc Hg]. simpl in Hc, Hg. by subst.
Qed.

Lemma Close_Ok_inv w w' :
  Cache.Close w = Ok w' ->
  Cache.running w ∧
  w' = Cache.World (Cache.heap w) None ChanClosed Returned.
Proof.
  destruct w as [σ s [] []]; try discriminate.
  intros [= <-]. by split.
Qed.

Lemma New_running interval σ :
  0 < interval ->
  ∃ w, Cache.New (T := T) interval σ = Ok w ∧ Cache.running w ∧
       Cache.allocated w ∧ contents (Cache.c_set w) (Cache.heap w) = ∅.
Proof.
  intros Hpos. unfold Cache.New, set.newSet, make_map.
  assert ((interval <=? 0) = false) as -> by (apply Z.leb_gt; lia).
  eexists. split; [done|]. split; [done|]. split.
  - intros l [= <-]. simpl. rewrite dom_insert_L. set_solver.
  - apply contents_insert_same.
Qed.

(** *** A call writes to the table of field [set] only *)

Lemma exec_frame (c : Cache.call T) w w' l :
  Cache.exec c w = Ok w' -> Cache.c_set w ≠ Some l ->
  contents (Some l) (Cache.heap w') = contents (Some l) (Cache.heap w) ∧
  Cache.c_set w' ≠ Some l.
Proof.
  intros Hexec Hne. destruct c as [now e d|e|now e|clock| |]; simpl in Hexec.
  - unfold Cache.Add in Hexec.
    destruct (set.Add now (Cache.c_set w) e d (Cache.heap w)) as [σ'| |] eqn:Hadd;
      try discriminate.
    injection Hexec as <-. split; [|done].
    by apply (contents_Add_other now (Cache.c_set w) _ e d).
  - injection Hexec as <-. split; [|done].
    by apply contents_map_delete_other.
  - injection Hexec as <-. split; [|done].
    by apply contents_Expire_other.
  - injection Hexec as <-. split; [|done].
    by apply contents_ExpireAll_other.
  - injection Hexec as <-. split; [|done].
    by apply contents_Clear_other.
  - apply Close_Ok_inv in Hexec as [_ ->]. by split.
Qed.

Lemma run_frame (cs : list (Cache.call T)) w w' l :
  Cache.run cs w = Ok w' -> Cache.c_set w ≠ Some l ->
  contents (Some l) (Cache.heap w') = contents (Some l) (Cache.heap w).
Proof.
  revert w. induction cs as [|c cs IH]; intros w Hrun Hne; simpl in Hrun.
  - by injection Hrun as <-.
  - destruct (Cache.exec c w) as [w1| |] eqn:Hexec; try discriminate.
    destruct (exec_frame c w w1 l Hexec Hne) as [Heq Hne1].
    rewrite <- Heq. by apply IH.
Qed.

End cache_facts.

(** ** The claims on the wrapper *)

Section cache_claims.
Context {T : Type} `{Countable T}.
Implicit Types (σ : gmap loc (gmap T Z)) (s m : mapref) (e f k : T).
Implicit Types (w : Cache.world T).

(** C1, on the [CopySet] whose body is [return c.set].  The mapping it
    returns is the live table itself: an [Add] of an element [e] that the
    returned mapping did not hold makes [e] appear in that mapping, so
    the mapping returned earlier has changed. *)
Theorem CopySet_shares_live_table now e d w l :
  Cache.c_set w = Some l ->
  contents (Cache.CopySet w) (Cache.heap w) !! e = None ->
  ∃ w' v, Cache.Add now e d w = Ok w' ∧
          contents (Cache.CopySet w) (Cache.heap w') !! e = Some v ∧
          contents (Cache.CopySet w) (Cache.heap w')
            ≠ contents (Cache.CopySet w) (Cache.heap w).
Proof.
  intros Hset Hnone. unfold Cache.CopySet, Cache.Add in *. rewrite Hset in *.
  destruct (contents_Add now l e d (Cache.heap w)) as (σ' & Hadd & Hc & _).
  rewrite Hadd.
  exists (Cache.with_heap w σ'), (if 0 <? d then Time.UnixNanoAfter now d else 0).
  split; [done|].
  assert (contents (Some l) σ' !! e
          = Some (if 0 <? d then Time.UnixNanoAfter now d else 0)) as Hlk
    by (rewrite Hc; apply lookup_insert_eq).
  split; [done|].
  intros Heq. change (Cache.heap (Cache.with_heap w σ')) with σ' in Heq.
  rewrite Heq, Hnone in Hlk. discriminate.
Qed.

(** The same for every call but [Close]: the mapping returned earlier
    reads as the live set does after the call. *)
Lemma CopySet_tracks_live_set (c : Cache.call T) w w' :
  c ≠ Cache.CallClose ->
  Cache.exec c w = Ok w' ->
  contents (Cache.CopySet w) (Cache.heap w')
    = contents (Cache.c_set w') (Cache.heap w').
Proof.
  intros Hc Hexec. unfold Cache.CopySet.
  destruct c as [now e d|e|now e|clock| |]; simpl in Hexec; try done;
    try by injection Hexec as <-.
  unfold Cache.Add in Hexec.
  destruct (set.Add now (Cache.c_set w) e d (Cache.heap w)); try discriminate.
  by injection Hexec as <-.
Qed.

(** The [CopySet] whose body is [return c.set.Copy()]: the mapping it
    returns equals the contents of the set at the call and no later
    call on the cache changes it. *)
Lemma CopySet_Copy_independent w w1 m :
  Cache.allocated w ->
  Cache.CopySet_Copy w = (w1, m) ->
  contents m (Cache.heap w1) = contents (Cache.c_set w) (Cache.heap w) ∧
  contents (Cache.c_set w1) (Cache.heap w1)
    = contents (Cache.c_set w) (Cache.heap w) ∧
  ∀ (cs : list (Cache.call T)) w',
    Cache.run cs w1 = Ok w' ->
    contents m (Cache.heap w') = contents m (Cache.heap w1).
Proof.
  intros Halloc [= <- <-].
  set (l' := fresh (dom (Cache.heap w))).
  assert (Cache.c_set w ≠ Some l') as Hne.
  { intros Heq. apply Halloc in Heq. by apply is_fresh in Heq. }
  split; [apply contents_insert_same|]. split.
  - simpl. by apply contents_insert_other.
  - intros cs w' Hrun. by apply (run_frame cs _ w' l').
Qed.

(** C2, amended.  On a cache made by [New], the first [Close] returns;
    the second one does not block, and it is no no-op either: it panics,
    sending on the channel that the first one closed. *)
Theorem Close_twice_panics interval σ :
  0 < interval ->
  ∃ w0 w1, Cache.New (T := T) interval σ = Ok w0 ∧
           Cache.Close w0 = Ok w1 ∧
           Cache.Close w1 = Panics SendOnClosedChan.
Proof.
  intros Hpos.
  destruct (New_running interval σ Hpos) as (w0 & Hnew & Hrun & _).
  exists w0. eexists. split; [done|]. split; [by apply Close_running|].
  reflexivity.
Qed.

(** No [Close] that follows a [Close] returns. *)
Lemma Close_after_Close w w1 :
  Cache.Close w = Ok w1 -> Cache.Close w1 = Panics SendOnClosedChan.
Proof. intros [_ ->]%Close_Ok_inv. reflexivity. Qed.

(** C8. [Exists] returns what [Contains] returns. *)
Theorem Exists_alias_of_Contains e w : Cache.Exists e w = Cache.Contains e w.
Proof.
  unfold Cache.Exists, Cache.Contains.
  reflexivity.
Qed.

(** C9. [Close] on a running cache returns and leaves field [set] nil.
    From then on [Contains] and [Exists] return false, [Len] returns 0,
    [ToSlice] returns an empty slice, [Delete], [Clear], [Expire] and
    [ExpireAll] change nothing, and [Add] panics on the write to the nil
    map. *)
Theorem after_Close w :
  Cache.running w ->
  ∃ w', Cache.Close w = Ok w' ∧
    Cache.c_set w' = None ∧
    (∀ e, Cache.Contains e w' = false ∧ Cache.Exists e w' = false) ∧
    Cache.Len w' = 0%nat ∧
    Cache.ToSlice w' = [] ∧
    (∀ e, Cache.Delete e w' = w') ∧
    Cache.Clear w' = w' ∧
    (∀ now e, Cache.Expire now e w' = w') ∧
    (∀ clock, Cache.ExpireAll clock w' = w') ∧
    (∀ now e d, Cache.Add now e d w' = Panics AssignNilMap).
Proof.
  intros Hrun. eexists. split; [by apply Close_running|].
  repeat split.
Qed.

End cache_claims.

(** ** The scenarios of set_test.go

    [Add(1, 1s)] and [Add(2, 1min)] on a new set at clock reading [t0],
    then a look two seconds later. *)

Example scenario_Expired :
  ∃ σ, after_adds = Ok σ ∧
       set.Expired (t0 + 2 * second) (Some 1%positive) 1 σ = true ∧
       set.Expired (t0 + 2 * second) (Some 1%positive) 2 σ = false ∧
       set.Len (Some 1%positive) σ = 2%nat.
Proof. eexists. split; [reflexivity|]. by vm_compute. Qed.

Example scenario_ExpireAll :
  ∃ σ, after_adds = Ok σ ∧
       let σ' := set.ExpireAll (fun _ => t0 + 2 * second) (Some 1%positive) σ in
       set.Contains (Some 1%positive) 1 σ' = false ∧
       set.Contains (Some 1%positive) 2 σ' = true ∧
       set.ToSlice (Some 1%positive) σ' = [2].
Proof. eexists. split; [reflexivity|]. by vm_compute. Qed.

Example scenario_Clear :
  ∃ σ, after_adds = Ok σ ∧
       set.Len (Some 1%positive) (set.Clear (Some 1%positive) σ) = 0%nat.
Proof. eexists. split; [reflexivity|]. by vm_compute. Qed.

(** A duration too long for the timestamp to fit: the stored value is
    the wrapped one, which is negative, and the entry never expires. *)
Example scenario_long_duration :
  ∃ σ, set.Add t0 (Some 1%positive) 1 (8 * 10 ^ 18) (∅ : gmap loc (gmap Z Z)) = Ok σ ∧
       contents (Some 1%positive) σ !! 1 = Some (t0 + 8 * 10 ^ 18 - 2 ^ 64) ∧
       ∀ now, set.Expired now (Some 1%positive) 1 σ = false.
Proof.
  eexists. split; [reflexivity|]. split; [by vm_compute|].
  intros now. rewrite Expired_expired_at.
  replace (contents _ _ !! 1) with (Some (t0 + 8 * 10 ^ 18 - 2 ^ 64))
    by (by vm_compute).
  reflexivity.
Qed.

(** ** The statements at the example states *)

Lemma Contains_key_presence_witness :
  contents (Some 1%positive) store_foo !! "foo" = Some 5 ∧ 0 < 5 ∧ 5 < 9 ∧
  set.Expired 9 (Some 1%positive) "foo" store_foo = true ∧
  set.Contains (Some 1%positive) "foo" store_foo = true.
Proof.
  assert (contents (Some 1%positive) store_foo !! "foo" = Some 5) as Hlk
    by reflexivity.
  destruct (Contains_key_presence (Some 1%positive) "foo" store_foo) as [_ Hpast].
  split; [exact Hlk|]. split; [lia|]. split; [lia|].
  apply (Hpast 9 5 Hlk); lia.
Defined.

Lemma Expired_spec_witness :
  (-3) <= 0 ∧
  ∃ σ', set.Add 100 (Some 1%positive) "bar" (-3) store_foo = Ok σ' ∧
        contents (Some 1%positive) σ' !! "bar" = Some 0 ∧
        set.Expired (2 ^ 62) (Some 1%positive) "bar" σ' = false.
Proof.
  split; [lia|].
  destruct (Expired_spec (2 ^ 62) (Some 1%positive) 1%positive "bar" store_foo)
    as (_ & _ & Hadd).
  apply (Hadd (-3) 100). lia.
Defined.

Lemma Add_spec_witness :
  Int64.in_range 100 ∧ Int64.in_range 10 ∧
  ∃ σ', set.Add 100 (Some 1%positive) "foo" 10 store_foo = Ok σ' ∧
        contents (Some 1%positive) σ' = <[ "foo" := 110 ]> (contents (Some 1%positive) store_foo) ∧
        set.Contains (Some 1%positive) "foo" σ' = true ∧
        set.Expired 100 (Some 1%positive) "foo" σ' = false.
Proof.
  assert (Int64.in_range 100) as Hnow
    by (unfold Int64.in_range, Int64.min_int, Int64.max_int; lia).
  assert (Int64.in_range 10) as Hd
    by (unfold Int64.in_range, Int64.min_int, Int64.max_int; lia).
  split; [exact Hnow|]. split; [exact Hd|].
  destruct (Add_spec 100 1%positive "foo" 10 store_foo Hnow Hd)
    as (σ' & Hadd & _ & _ & Hexact & _ & Hafter).
  exists σ'. split; [exact Hadd|]. split.
  - apply Hexact; [lia | unfold Int64.max_int; lia].
  - apply Hafter. lia.
Defined.

Lemma ExpireAll_spec_witness :
  contents (Some 1%positive) store_foo !! "foo" = Some 5 ∧ 0 < 5 ∧ 5 < 9 ∧
  contents (Some 1%positive)
    (set.ExpireAll (fun _ => 9) (Some 1%positive) store_foo) !! "foo" = None ∧
  contents (Some 1%positive)
    (set.ExpireAll (fun _ => 3) (Some 1%positive) store_foo) !! "foo" = Some 5.
Proof.
  assert (contents (Some 1%positive) store_foo !! "foo" = Some 5) as Hlk
    by reflexivity.
  split; [exact Hlk|]. split; [lia|]. split; [lia|]. split.
  - destruct (ExpireAll_spec (fun _ => 9) (Some 1%positive) "foo" store_foo)
      as (_ & _ & Hgone).
    apply (Hgone 9 5); [lia | exact Hlk | lia | lia].
  - destruct (ExpireAll_spec (fun _ => 3) (Some 1%positive) "foo" store_foo)
      as (_ & Hkeep & _).
    apply (Hkeep 5 Hlk). right. lia.
Defined.

Lemma per_element_frame_witness :
  "bar" ≠ "foo" ∧
  (∃ σ', set.Add 100 (Some 1%positive) "bar" 10 store_foo = Ok σ' ∧
         contents (Some 1%positive) σ' !! "foo" = contents (Some 1%positive) store_foo !! "foo" ∧
         set.Contains (Some 1%positive) "foo" σ' = set.Contains (Some 1%positive) "foo" store_foo) ∧
  (contents (Some 1%positive) (set.Delete (Some 1%positive) "bar" store_foo) !! "foo"
     = contents (Some 1%positive) store_foo !! "foo" ∧
   set.Contains (Some 1%positive) "foo" (set.Delete (Some 1%positive) "bar" store_foo)
     = set.Contains (Some 1%positive) "foo" store_foo) ∧
  (contents (Some 1%positive) (set.Expire 100 (Some 1%positive) "bar" store_foo) !! "foo"
     = contents (Some 1%positive) store_foo !! "foo" ∧
   set.Contains (Some 1%positive) "foo" (set.Expire 100 (Some 1%positive) "bar" store_foo)
     = set.Contains (Some 1%positive) "foo" store_foo).
Proof.
  assert ("bar" ≠ "foo") as Hne by discriminate.
  split; [exact Hne|].
  exact (per_element_frame 100 (Some 1%positive) 1%positive "bar" "foo" 10 store_foo Hne).
Defined.

Lemma CopySet_shares_live_table_witness :
  Cache.c_set cache_foo = Some 1%positive ∧
  contents (Cache.CopySet cache_foo) (Cache.heap cache_foo) !! "bar" = None ∧
  ∃ w' v, Cache.Add 100 "bar" 0 cache_foo = Ok w' ∧
          contents (Cache.CopySet cache_foo) (Cache.heap w') !! "bar" = Some v ∧
          contents (Cache.CopySet cache_foo) (Cache.heap w')
            ≠ contents (Cache.CopySet cache_foo) (Cache.heap cache_foo).
Proof.
  split; [reflexivity|]. split; [reflexivity|].
  apply (CopySet_shares_live_table 100 "bar" 0 cache_foo 1%positive); reflexivity.
Defined.

Lemma Close_twice_panics_witness :
  0 < 1 ∧
  ∃ w0 w1 : Cache.world string,
    Cache.New 1 ∅ = Ok w0 ∧ Cache.Close w0 = Ok w1 ∧
    Cache.Close w1 = Panics SendOnClosedChan.
Proof.
  split; [lia|]. apply (Close_twice_panics 1 ∅). lia.
Defined.

Lemma after_Close_witness :
  Cache.running cache_foo ∧
  ∃ w', Cache.Close cache_foo = Ok w' ∧
    Cache.c_set w' = None ∧
    (∀ e, Cache.Contains e w' = false ∧ Cache.Exists e w' = false) ∧
    Cache.Len w' = 0%nat ∧
    Cache.ToSlice w' = [] ∧
    (∀ e, Cache.Delete e w' = w') ∧
    Cache.Clear w' = w' ∧
    (∀ now e, Cache.Expire now e w' = w') ∧
    (∀ clock, Cache.ExpireAll clock w' = w') ∧
    (∀ now e d, Cache.Add now e d w' = Panics AssignNilMap).
Proof.
  assert (Cache.running cache_foo) as Hrun by (split; reflexivity).
  split; [exact Hrun|]. exact (after_Close cache_foo Hrun).
Defined.

(** * Further properties of the code *)

(** ** The expiring set *)

Section set_more.
Context {T : Type} `{Countable T}.
Implicit Types (σ : gmap loc (gmap T Z)) (s m : mapref) (e f k : T).

Lemma Len_size s σ : set.Len s σ = size (contents s σ).
Proof. reflexivity. Qed.

Lemma Contains_false s e σ :
  set.Contains s e σ = false ↔ contents s σ !! e = None.
Proof.
  unfold set.Contains, map_index.
  destruct (contents s σ !! e); split; done.
Qed.

Lemma Len_Delete_present s e σ :
  set.Contains s e σ = true ->
  S (set.Len s (set.Delete s e σ)) = set.Len s σ.
Proof.
  intros [t Ht]%Contains_is_Some.
  rewrite !Len_size, contents_Delete, map_size_delete, Ht. simpl.
  assert (size (contents s σ) ≠ 0%nat) as Hpos; [|lia].
  intros Hz%map_size_empty_iff. by rewrite Hz, lookup_empty in Ht.
Qed.

Lemma Contains_Delete_same s e σ :
  set.Contains s e (set.Delete s e σ) = false.
Proof.
  apply Contains_false. rewrite contents_Delete. apply lookup_delete_eq.
Qed.

(** [Clear] empties the set it is called on, and no other map. *)
Theorem Clear_empties s m σ :
  contents s (set.Clear s σ) = ∅ ∧
  set.Len s (set.Clear s σ) = 0%nat ∧
  set.ToSlice s (set.Clear s σ) = [] ∧
  (∀ e, set.Contains s e (set.Clear s σ) = false) ∧
  (s ≠ m -> contents m (set.Clear s σ) = contents m σ).
Proof.
  assert (contents s (set.Clear s σ) = ∅) as Hempty by apply contents_Clear.
  split; [done|]. split; [|split; [|split]].
  - by rewrite Len_size, Hempty, map_size_empty.
  - rewrite ToSlice_map_range. unfold map_range.
    by rewrite Hempty, map_to_list_empty.
  - intros e. apply Contains_false. by rewrite Hempty, lookup_empty.
  - apply contents_Clear_other.
Qed.

(** [Delete] leaves the element absent; it takes one off the length when
    the element was present and changes no entry when it was not. *)
Theorem Delete_removes s e σ :
  set.Contains s e (set.Delete s e σ) = false ∧
  (∀ now, set.Expired now s e (set.Delete s e σ) = false) ∧
  (set.Contains s e σ = true ->
     S (set.Len s (set.Delete s e σ)) = set.Len s σ) ∧
  (set.Contains s e σ = false ->
     contents s (set.Delete s e σ) = contents s σ).
Proof.
  assert (contents s (set.Delete s e σ) !! e = None) as Hgone
    by (rewrite contents_Delete; apply lookup_delete_eq).
  split; [by apply Contains_false|]. split; [|split].
  - intros now. by rewrite Expired_expired_at, Hgone.
  - apply Len_Delete_present.
  - intros Habs%Contains_false. rewrite contents_Delete. by apply delete_id.
Qed.

(** [Expire] removes the element exactly when it is expired; otherwise it
    leaves the whole store as it is.  Either way the element is not
    expired afterwards, and a second [Expire] does nothing more. *)
Theorem Expire_settles now s e σ :
  set.Expired now s e (set.Expire now s e σ) = false ∧
  set.Expire now s e (set.Expire now s e σ) = set.Expire now s e σ ∧
  (set.Expired now s e σ = false -> set.Expire now s e σ = σ) ∧
  (set.Expired now s e σ = true ->
     set.Contains s e (set.Expire now s e σ) = false ∧
     S (set.Len s (set.Expire now s e σ)) = set.Len s σ).
Proof.
  assert (set.Expired now s e (set.Expire now s e σ) = false) as Hnot.
  { rewrite Expired_expired_at, lookup_Expire, decide_True by done.
    destruct (expired_at now (contents s σ !! e)) eqn:Hexp; [done|].
    by rewrite Hexp. }
  split; [done|]. split; [|split].
  - unfold set.Expire at 1. by rewrite Hnot.
  - intros Hexp. unfold set.Expire. by rewrite Hexp.
  - intros Hexp.
    assert (set.Contains s e σ = true) as Hin.
    { apply Contains_is_Some. rewrite Expired_expired_at in Hexp.
      apply expired_at_true in Hexp as (t & Ht & _). by exists t. }
    unfold set.Expire. rewrite Hexp.
    split; [apply Contains_Delete_same | by apply Len_Delete_present].
Qed.

(** After [ExpireAll] no element is expired at the reading the sweep
    tested it with, and a second sweep with the same readings removes
    nothing more. *)
Theorem ExpireAll_settles (clock : T -> Z) s σ :
  (∀ e, set.Expired (clock e) s e (set.ExpireAll clock s σ) = false) ∧
  contents s (set.ExpireAll clock s (set.ExpireAll clock s σ))
    = contents s (set.ExpireAll clock s σ).
Proof.
  assert (∀ e, set.Expired (clock e) s e (set.ExpireAll clock s σ) = false)
    as Hnot.
  { intros e. rewrite Expired_expired_at, lookup_ExpireAll, Expired_expired_at.
    destruct (expired_at (clock e) (contents s σ !! e)) eqn:Hexp; [done|].
    by rewrite Hexp. }
  split; [done|]. apply map_eq. intros e.
  by rewrite (lookup_ExpireAll clock s e (set.ExpireAll clock s σ)), Hnot.
Qed.

(** [ExpireAll] only removes: what is left is part of what was there, the
    length does not grow, nothing changes when nothing is expired, and no
    other map is touched. *)
Theorem ExpireAll_shrinks (clock : T -> Z) s m σ :
  contents s (set.ExpireAll clock s σ) ⊆ contents s σ ∧
  (set.Len s (set.ExpireAll clock s σ) <= set.Len s σ)%nat ∧
  ((∀ e, set.Expired (clock e) s e σ = false) ->
     contents s (set.ExpireAll clock s σ) = contents s σ) ∧
  (s ≠ m -> contents m (set.ExpireAll clock s σ) = contents m σ).
Proof.
  assert (contents s (set.ExpireAll clock s σ) ⊆ contents s σ) as Hsub.
  { apply map_subseteq_spec. intros e t. rewrite lookup_ExpireAll.
    by destruct (set.Expired (clock e) s e σ). }
  split; [done|]. split; [|split].
  - rewrite !Len_size. by apply map_subseteq_size.
  - intros Hnone. apply map_eq. intros e.
    by rewrite lookup_ExpireAll, Hnone.
  - apply contents_ExpireAll_other.
Qed.

(** Expiry is monotone in the clock: an element that is expired stays
    expired at every later reading, and a later sweep keeps no more than
    an earlier one. *)
Theorem Expired_monotone now now' s e σ :
  now <= now' ->
  (set.Expired now s e σ = true -> set.Expired now' s e σ = true) ∧
  contents s (set.ExpireAll (fun _ => now') s σ)
    ⊆ contents s (set.ExpireAll (fun _ => now) s σ).
Proof.
  intros Hle.
  assert (∀ f, set.Expired now s f σ = true -> set.Expired now' s f σ = true)
    as Hmono.
  { intros f. rewrite !Expired_expired_at, !expired_at_true.
    intros (t & Ht & Hpos & Hlt). exists t. repeat split; [done | done | lia]. }
  split; [apply Hmono|].
  apply map_subseteq_spec. intros f t. rewrite !lookup_ExpireAll.
  destruct (set.Expired now s f σ) eqn:Hexp.
  - by rewrite (Hmono f Hexp).
  - by destruct (set.Expired now' s f σ).
Qed.

End set_more.

Section set_add.
Context {T : Type} `{Countable T}.
Implicit Types (σ : gmap loc (gmap T Z)) (s m : mapref) (e f k : T).

(** [Add] on a set (not nil) returns; the length grows by one when the
    element is new and stays when it was there; no other map changes. *)
Theorem Add_Len now l e d σ :
  ∃ σ', set.Add now (Some l) e d σ = Ok σ' ∧
    set.Len (Some l) σ' =
      (if set.Contains (Some l) e σ then set.Len (Some l) σ
       else S (set.Len (Some l) σ)) ∧
    (∀ m, m ≠ Some l -> contents m σ' = contents m σ).
Proof.
  destruct (contents_Add now l e d σ) as (σ' & Hadd & Hc & Hother).
  exists σ'. split; [done|]. split; [|done].
  rewrite !Len_size, Hc, map_size_insert.
  unfold set.Contains, map_index.
  by destruct (contents (Some l) σ !! e).
Qed.

(** [Delete] undoes [Add]: after both the element is absent and every
    other entry is as before the [Add]; when the element was new, the set
    is back to what it was. *)
Theorem Add_then_Delete now l e d σ :
  ∃ σ1, set.Add now (Some l) e d σ = Ok σ1 ∧
    contents (Some l) (set.Delete (Some l) e σ1) = delete e (contents (Some l) σ) ∧
    (set.Contains (Some l) e σ = false ->
       contents (Some l) (set.Delete (Some l) e σ1) = contents (Some l) σ).
Proof.
  destruct (contents_Add now l e d σ) as (σ1 & Hadd & Hc & _).
  exists σ1. split; [done|].
  assert (contents (Some l) (set.Delete (Some l) e σ1)
          = delete e (contents (Some l) σ)) as Hdel
    by (by rewrite contents_Delete, Hc, delete_insert_eq).
  split; [done|].
  intros Habs%Contains_false. rewrite Hdel. by apply delete_id.
Qed.

(** The life of an entry with a positive duration: once the clock is past
    [now + d] the element is expired but still contained, and [Expire] or
    [ExpireAll] at that reading removes it. *)
Theorem Add_then_expires now now' l e d σ :
  0 < d -> 0 < now + d -> now + d <= Int64.max_int -> now + d < now' ->
  ∃ σ1, set.Add now (Some l) e d σ = Ok σ1 ∧
    set.Expired now' (Some l) e σ1 = true ∧
    set.Contains (Some l) e σ1 = true ∧
    set.Contains (Some l) e (set.Expire now' (Some l) e σ1) = false ∧
    set.Contains (Some l) e (set.ExpireAll (fun _ => now') (Some l) σ1) = false.
Proof.
  intros Hd Hpos Hfit Hpast.
  destruct (contents_Add now l e d σ) as (σ1 & Hadd & Hc & _).
  exists σ1. split; [done|].
  assert (contents (Some l) σ1 !! e = Some (now + d)) as Hlk.
  { rewrite Hc, lookup_insert_eq.
    assert ((0 <? d) = true) as -> by (by apply Z.ltb_lt).
    rewrite UnixNanoAfter_exact; [done|].
    unfold Int64.in_range, Int64.min_int. lia. }
  assert (set.Expired now' (Some l) e σ1 = true) as Hexp.
  { rewrite Expired_expired_at. apply expired_at_true. by exists (now + d). }
  split; [done|]. split; [|split].
  - apply Contains_is_Some. by eexists.
  - unfold set.Expire. rewrite Hexp. apply Contains_Delete_same.
  - apply Contains_false. by rewrite lookup_ExpireAll, Hexp.
Qed.

(** A timestamp that is not positive never expires: an [Add] with a
    positive duration at a clock reading with [now + d <= 0] (a clock set
    before 1970) stores an entry that [Expired] reports false for at every
    later reading, as for the sentinel. *)
Theorem Add_nonpositive_timestamp now l e d σ :
  0 < d -> Int64.min_int <= now -> now + d <= 0 ->
  ∃ σ1, set.Add now (Some l) e d σ = Ok σ1 ∧
    contents (Some l) σ1 !! e = Some (now + d) ∧
    ∀ now', set.Expired now' (Some l) e σ1 = false.
Proof.
  intros Hd Hmin Hneg.
  destruct (contents_Add now l e d σ) as (σ1 & Hadd & Hc & _).
  exists σ1. split; [done|].
  assert (contents (Some l) σ1 !! e = Some (now + d)) as Hlk.
  { rewrite Hc, lookup_insert_eq.
    assert ((0 <? d) = true) as -> by (by apply Z.ltb_lt).
    rewrite UnixNanoAfter_exact; [done|].
    unfold Int64.in_range, Int64.min_int, Int64.max_int in *. lia. }
  split; [done|]. intros now'. rewrite Expired_expired_at, Hlk. simpl.
  apply andb_false_iff. left. apply Z.ltb_ge. lia.
Qed.

(** [newSet] returns a set that is not nil, is empty, and shares its table
    with no map that exists: the maps of the store keep their contents,
    and an [Add] to the new set does not reach them. *)
Theorem newSet_fresh σ σ' s l :
  set.newSet σ = (σ', s) -> l ∈ dom σ ->
  s ≠ None ∧ s ≠ Some l ∧
  contents s σ' = ∅ ∧ set.Len s σ' = 0%nat ∧
  contents (Some l) σ' = contents (Some l) σ ∧
  (∀ now e d σ'', set.Add now s e d σ' = Ok σ'' ->
     contents (Some l) σ'' = contents (Some l) σ).
Proof.
  intros [= <- <-] Hl.
  set (l' := fresh (dom σ)).
  assert (l' ≠ l) as Hne.
  { intros Heq. pose proof (is_fresh (dom σ)) as Hfresh. fold l' in Hfresh.
    by rewrite Heq in Hfresh. }
  assert (contents (Some l) (<[l' := ∅]> σ) = contents (Some l) σ) as Hkeep
    by (apply contents_insert_other; congruence).
  split; [done|]. split; [congruence|]. split; [apply contents_insert_same|].
  split; [by rewrite Len_size, contents_insert_same, map_size_empty|].
  split; [done|].
  intros now e d σ'' Hadd. rewrite <- Hkeep.
  apply (contents_Add_other now (Some l') (Some l) e d _ _); [congruence | done].
Qed.

End set_add.

(** ** The wrapper *)

Section cache_more.
Context {T : Type} `{Countable T}.
Implicit Types (σ : gmap loc (gmap T Z)) (s m : mapref) (e f k : T).
Implicit Types (w : Cache.world T) (c : Cache.call T) (cs : list (Cache.call T)).

(** [New] panics on an interval that is not positive (in
    [time.NewTicker]); otherwise it returns a running cache with a new,
    empty set and leaves the maps of the store as they were. *)
Theorem New_spec interval σ :
  (interval <= 0 -> Cache.New (T := T) interval σ = Panics NonPositiveTicker) ∧
  (0 < interval ->
     ∃ w, Cache.New (T := T) interval σ = Ok w ∧
       Cache.running w ∧ Cache.c_set w ≠ None ∧
       Cache.Len w = 0%nat ∧ Cache.ToSlice w = [] ∧
       (∀ e, Cache.Contains e w = false) ∧
       (∀ l, l ∈ dom σ ->
          Cache.c_set w ≠ Some l ∧
          contents (Some l) (Cache.heap w) = contents (Some l) σ)).
Proof.
  split.
  - intros Hle. unfold Cache.New, set.newSet, make_map.
    by assert ((interval <=? 0) = true) as -> by (by apply Z.leb_le).
  - intros Hpos. unfold Cache.New, set.newSet, make_map.
    assert ((interval <=? 0) = false) as -> by (apply Z.leb_gt; lia).
    set (l' := fresh (dom σ)).
    assert (contents (Some l') (<[l' := ∅]> σ) = (∅ : gmap T Z)) as Hempty
      by apply contents_insert_same.
    eexists. split; [done|]. split; [done|]. split; [done|].
    split; [|split; [|split]].
    + unfold Cache.Len. cbn [Cache.c_set Cache.heap].
      by rewrite Len_size, Hempty, map_size_empty.
    + unfold Cache.ToSlice. cbn [Cache.c_set Cache.heap].
      rewrite ToSlice_map_range. unfold map_range.
      by rewrite Hempty, map_to_list_empty.
    + intros e. unfold Cache.Contains. cbn [Cache.c_set Cache.heap].
      apply Contains_false. by rewrite Hempty, lookup_empty.
    + intros l Hl. cbn [Cache.c_set Cache.heap].
      assert (l' ≠ l) as Hne.
      { intros Heq. pose proof (is_fresh (dom σ)) as Hfresh. fold l' in Hfresh.
        by rewrite Heq in Hfresh. }
      split; [congruence|]. apply contents_insert_other. congruence.
Qed.

Lemma exec_data_call c w l :
  data_call c = true -> Cache.running w -> Cache.c_set w = Some l ->
  ∃ w', Cache.exec c w = Ok w' ∧ Cache.running w' ∧ Cache.c_set w' = Some l.
Proof.
  intros Hc Hrun Hset. destruct c as [now e d|e|now e|clock| |]; simpl;
    try discriminate; try (by eexists).
  unfold Cache.Add. rewrite Hset.
  destruct (contents_Add now l e d (Cache.heap w)) as (σ' & -> & _).
  by eexists.
Qed.

(** Until [Close], nothing fails: on a running cache whose set is not nil
    (as [New] returns it), every sequence of calls of [Add], [Delete],
    [Expire], [ExpireAll] and [Clear] returns; the cache is still running
    on the same set, the tables of other maps are unchanged, and [Close]
    then returns. *)
Theorem open_cache_calls_return cs w l :
  Cache.running w -> Cache.c_set w = Some l ->
  forallb data_call cs = true ->
  ∃ w', Cache.run cs w = Ok w' ∧
    Cache.running w' ∧ Cache.c_set w' = Some l ∧
    (∀ l', l' ≠ l ->
       contents (Some l') (Cache.heap w') = contents (Some l') (Cache.heap w)) ∧
    (∃ w'', Cache.Close w' = Ok w'').
Proof.
  revert w. induction cs as [|c cs IH]; intros w Hrun Hset Hall.
  - exists w. split; [done|]. split; [done|]. split; [done|]. split; [done|].
    eexists. by apply Close_running.
  - cbn [forallb] in Hall. apply andb_true_iff in Hall as [Hc Hcs].
    destruct (exec_data_call c w l Hc Hrun Hset) as (w1 & Hexec & Hrun1 & Hset1).
    destruct (IH w1 Hrun1 Hset1 Hcs) as (w' & Hrest & Hrun' & Hset' & Hframe & Hclose).
    exists w'. split; [by cbn [Cache.run]; rewrite Hexec|].
    split; [done|]. split; [done|]. split; [|done].
    intros l' Hne. rewrite Hframe by done.
    apply (exec_frame c w w1 l' Hexec). rewrite Hset. congruence.
Qed.

Lemma exec_closed c σ g :
  Cache.exec c (Cache.World σ None ChanClosed g) =
  if removal_call c then Ok (Cache.World σ None ChanClosed g)
  else Panics (match c with
               | Cache.CallClose => SendOnClosedChan
               | _ => AssignNilMap
               end).
Proof. by destruct c. Qed.

(** A closed cache is final: after [Close], a sequence of calls returns
    exactly when it holds no [Add] and no [Close], and then the state is
    the one [Close] left; the first [Add] or [Close] in it panics. *)
Theorem closed_cache_final cs w w' :
  Cache.Close w = Ok w' ->
  (∀ w'', Cache.run cs w' = Ok w'' ↔ forallb removal_call cs = true ∧ w'' = w') ∧
  (forallb removal_call cs = false -> ∃ p, Cache.run cs w' = Panics p).
Proof.
  intros [_ ->]%Close_Ok_inv.
  set (wc := Cache.World (Cache.heap w) None ChanClosed Returned).
  induction cs as [|c cs [IHok IHpanic]].
  - split; [|done]. intros w''. cbn [Cache.run forallb]. split.
    + by intros [= <-].
    + by intros [_ ->].
  - cbn [Cache.run forallb]. unfold wc at 1 3. rewrite exec_closed. fold wc.
    destruct (removal_call c); [done|]. split.
    + intros w''. split; [done | by intros [? _]].
    + intros _. by eexists.
Qed.

End cache_more.

(** ** The sweeper and the lock *)

Section guarded_facts.
Context {T : Type} `{Countable T}.
Implicit Types (g : Guarded.state T).

(** The tick branch of the sweeper never completes.  It takes the write
    lock and calls [Cache.ExpireAll], which waits for the lock its caller
    holds; from the moment the branch holds the lock, every method that
    takes the lock waits as well. *)
Theorem sweeper_tick_blocks (clock : T -> Z) g :
  Guarded.sweeper_tick clock g = Blocks ∧
  (Guarded.mu g = MuFree ->
   ∃ g1, Guarded.Lock g = Ok g1 ∧ Guarded.mu g1 = MuWriter ∧
     Guarded.cache g1 = Guarded.cache g ∧
     Guarded.ExpireAll clock g1 = Blocks ∧
     (∀ now e d, Guarded.Add now e d g1 = Blocks) ∧
     (∀ e, Guarded.Delete e g1 = Blocks) ∧
     (∀ now e, Guarded.Expire now e g1 = Blocks) ∧
     Guarded.Clear g1 = Blocks ∧
     (∀ e, Guarded.Contains e g1 = Blocks) ∧
     (∀ e, Guarded.Exists e g1 = Blocks) ∧
     Guarded.Len g1 = Blocks ∧
     Guarded.ToSlice g1 = Blocks ∧
     Guarded.CopySet g1 = Blocks).
Proof.
  split.
  - unfold Guarded.sweeper_tick, Guarded.Lock. by destruct (Guarded.mu g).
  - intros Hfree. unfold Guarded.Lock. rewrite Hfree.
    eexists. split; [done|]. repeat split.
Qed.

(** With the mutex free, a method of the wrapper does what its body does
    and leaves the mutex free: sequences of calls by one caller can be
    followed on the bodies alone. *)
Lemma methods_release_lock g :
  Guarded.mu g = MuFree ->
  (∀ now e d,
     Guarded.Add now e d g =
     (w' ← Cache.Add now e d (Guarded.cache g); Ok (Guarded.State MuFree w'))) ∧
  (∀ e, Guarded.Delete e g
        = Ok (Guarded.State MuFree (Cache.Delete e (Guarded.cache g)))) ∧
  (∀ now e, Guarded.Expire now e g
        = Ok (Guarded.State MuFree (Cache.Expire now e (Guarded.cache g)))) ∧
  (∀ clock, Guarded.ExpireAll clock g
        = Ok (Guarded.State MuFree (Cache.ExpireAll clock (Guarded.cache g)))) ∧
  Guarded.Clear g = Ok (Guarded.State MuFree (Cache.Clear (Guarded.cache g))) ∧
  (∀ e, Guarded.Contains e g = Ok (Cache.Contains e (Guarded.cache g), g)) ∧
  (∀ e, Guarded.Exists e g = Ok (Cache.Exists e (Guarded.cache g), g)) ∧
  Guarded.Len g = Ok (Cache.Len (Guarded.cache g), g) ∧
  Guarded.ToSlice g = Ok (Cache.ToSlice (Guarded.cache g), g) ∧
  Guarded.CopySet g = Ok (Cache.CopySet (Guarded.cache g), g).
Proof.
  destruct g as [m w]. simpl. intros ->.
  repeat split; intros; reflexivity.
Qed.

End guarded_facts.

Section cache_usage.
Context {T : Type} `{Countable T}.
Implicit Types (e : T) (w : Cache.world T).

(** The wrapper on a set that is not nil: [Add] returns, after it the
    element is reported by [Contains], [Exists] and [ToSlice], [Len]
    counts the elements of [ToSlice], [Delete] takes the element away
    again and [Clear] leaves nothing. *)
Theorem Cache_Add_Delete_Clear now e d w l :
  Cache.c_set w = Some l ->
  ∃ w1, Cache.Add now e d w = Ok w1 ∧
    Cache.Contains e w1 = true ∧ Cache.Exists e w1 = true ∧
    e ∈ Cache.ToSlice w1 ∧
    Cache.Len w1 = length (Cache.ToSlice w1) ∧
    Cache.Contains e (Cache.Delete e w1) = false ∧
    Cache.Len (Cache.Clear w1) = 0%nat ∧
    Cache.ToSlice (Cache.Clear w1) = [].
Proof.
  intros Hset. unfold Cache.Add. rewrite Hset.
  destruct (contents_Add now l e d (Cache.heap w)) as (σ1 & -> & Hc & _).
  exists (Cache.with_heap w σ1). split; [done|].
  assert (is_Some (contents (Some l) σ1 !! e)) as Hin
    by (rewrite Hc, lookup_insert_eq; by eexists).
  unfold Cache.Contains, Cache.Exists, Cache.ToSlice, Cache.Len, Cache.Delete,
    Cache.Clear.
  cbn [Cache.with_heap Cache.c_set Cache.heap]. rewrite Hset.
  assert (contents (Some l) (set.Clear (Some l) σ1) = ∅) as Hempty
    by apply contents_Clear.
  repeat split.
  - by apply Contains_is_Some.
  - by apply Contains_is_Some.
  - rewrite ToSlice_map_range. by apply elem_of_map_range.
  - by rewrite ToSlice_map_range, length_map_range.
  - apply Contains_Delete_same.
  - by rewrite Len_size, Hempty, map_size_empty.
  - rewrite ToSlice_map_range. unfold map_range.
    by rewrite Hempty, map_to_list_empty.
Qed.

End cache_usage.

(** ** The further properties at the example states *)

Lemma Clear_empties_witness :
  Some 1%positive ≠ Some 2%positive ∧
  contents (Some 1%positive) (set.Clear (Some 1%positive) store_foo) = ∅ ∧
  contents (Some 2%positive) (set.Clear (Some 1%positive) store_foo)
    = contents (Some 2%positive) store_foo.
Proof.
  assert (Some 1%positive ≠ Some 2%positive) as Hne by discriminate.
  destruct (Clear_empties (Some 1%positive) (Some 2%positive) store_foo)
    as (Hempty & _ & _ & _ & Hother).
  split; [exact Hne|]. split; [exact Hempty | exact (Hother Hne)].
Defined.

Lemma Delete_removes_witness :
  set.Contains (Some 1%positive) "foo" store_foo = true ∧
  set.Contains (Some 1%positive) "bar" store_foo = false ∧
  S (set.Len (Some 1%positive) (set.Delete (Some 1%positive) "foo" store_foo))
    = set.Len (Some 1%positive) store_foo ∧
  contents (Some 1%positive) (set.Delete (Some 1%positive) "bar" store_foo)
    = contents (Some 1%positive) store_foo.
Proof.
  assert (set.Contains (Some 1%positive) "foo" store_foo = true) as Hfoo
    by reflexivity.
  assert (set.Contains (Some 1%positive) "bar" store_foo = false) as Hbar
    by reflexivity.
  destruct (Delete_removes (Some 1%positive) "foo" store_foo) as (_ & _ & Hlen & _).
  destruct (Delete_removes (Some 1%positive) "bar" store_foo) as (_ & _ & _ & Hid).
  split; [exact Hfoo|]. split; [exact Hbar|].
  split; [exact (Hlen Hfoo) | exact (Hid Hbar)].
Defined.

Lemma Expire_settles_witness :
  set.Expired 9 (Some 1%positive) "foo" store_foo = true ∧
  set.Expired 3 (Some 1%positive) "foo" store_foo = false ∧
  set.Contains (Some 1%positive) "foo"
    (set.Expire 9 (Some 1%positive) "foo" store_foo) = false ∧
  set.Expire 3 (Some 1%positive) "foo" store_foo = store_foo.
Proof.
  assert (set.Expired 9 (Some 1%positive) "foo" store_foo = true) as Hexp
    by reflexivity.
  assert (set.Expired 3 (Some 1%positive) "foo" store_foo = false) as Hnot
    by reflexivity.
  destruct (Expire_settles 9 (Some 1%positive) "foo" store_foo) as (_ & _ & _ & Hgone).
  destruct (Expire_settles 3 (Some 1%positive) "foo" store_foo) as (_ & _ & Hid & _).
  split; [exact Hexp|]. split; [exact Hnot|].
  split; [exact (proj1 (Hgone Hexp)) | exact (Hid Hnot)].
Defined.

Lemma ExpireAll_shrinks_witness :
  (∀ e, set.Expired 3 (Some 1%positive) e store_foo = false) ∧
  Some 1%positive ≠ Some 2%positive ∧
  contents (Some 1%positive) (set.ExpireAll (fun _ => 3) (Some 1%positive) store_foo)
    = contents (Some 1%positive) store_foo ∧
  contents (Some 2%positive) (set.ExpireAll (fun _ => 9) (Some 1%positive) store_foo)
    = contents (Some 2%positive) store_foo.
Proof.
  assert (∀ e, set.Expired 3 (Some 1%positive) e store_foo = false) as Hnone.
  { intros e. rewrite Expired_expired_at.
    change (contents (Some 1%positive) store_foo)
      with ({[ "foo" := 5 ]} : gmap string Z).
    destruct (decide (e = "foo")) as [->|Hne]; [reflexivity|].
    rewrite lookup_singleton_ne; [reflexivity | congruence]. }
  assert (Some 1%positive ≠ Some 2%positive) as Hne by discriminate.
  destruct (ExpireAll_shrinks (fun _ => 3) (Some 1%positive) (Some 2%positive) store_foo)
    as (_ & _ & Hsame & _).
  destruct (ExpireAll_shrinks (fun _ => 9) (Some 1%positive) (Some 2%positive) store_foo)
    as (_ & _ & _ & Hother).
  split; [exact Hnone|]. split; [exact Hne|].
  split; [exact (Hsame Hnone) | exact (Hother Hne)].
Defined.

Lemma Expired_monotone_witness :
  9 <= 20 ∧
  set.Expired 9 (Some 1%positive) "foo" store_foo = true ∧
  set.Expired 20 (Some 1%positive) "foo" store_foo = true.
Proof.
  assert (9 <= 20) as Hle by lia.
  assert (set.Expired 9 (Some 1%positive) "foo" store_foo = true) as Hexp
    by reflexivity.
  destruct (Expired_monotone 9 20 (Some 1%positive) "foo" store_foo Hle) as [Hmono _].
  split; [exact Hle|]. split; [exact Hexp | exact (Hmono Hexp)].
Defined.

Lemma Add_Len_witness :
  Some 2%positive ≠ Some 1%positive ∧
  ∃ σ', set.Add 100 (Some 1%positive) "bar" 10 store_foo = Ok σ' ∧
    set.Len (Some 1%positive) σ' = 2%nat ∧
    contents (Some 2%positive) σ' = contents (Some 2%positive) store_foo.
Proof.
  assert (Some 2%positive ≠ Some 1%positive) as Hne by discriminate.
  split; [exact Hne|].
  destruct (Add_Len 100 1%positive "bar" 10 store_foo) as (σ' & Hadd & Hlen & Hother).
  exists σ'. split; [exact Hadd|]. split; [exact Hlen | exact (Hother _ Hne)].
Defined.

Lemma Add_then_Delete_witness :
  set.Contains (Some 1%positive) "bar" store_foo = false ∧
  ∃ σ1, set.Add 100 (Some 1%positive) "bar" 10 store_foo = Ok σ1 ∧
    contents (Some 1%positive) (set.Delete (Some 1%positive) "bar" σ1)
      = contents (Some 1%positive) store_foo.
Proof.
  assert (set.Contains (Some 1%positive) "bar" store_foo = false) as Hbar
    by reflexivity.
  split; [exact Hbar|].
  destruct (Add_then_Delete 100 1%positive "bar" 10 store_foo) as (σ1 & Hadd & _ & Hback).
  exists σ1. split; [exact Hadd | exact (Hback Hbar)].
Defined.

Lemma Add_then_expires_witness :
  0 < 10 ∧ 0 < 100 + 10 ∧ 100 + 10 <= Int64.max_int ∧ 100 + 10 < 111 ∧
  ∃ σ1, set.Add 100 (Some 1%positive) "bar" 10 store_foo = Ok σ1 ∧
    set.Expired 111 (Some 1%positive) "bar" σ1 = true ∧
    set.Contains (Some 1%positive) "bar" σ1 = true ∧
    set.Contains (Some 1%positive) "bar"
      (set.Expire 111 (Some 1%positive) "bar" σ1) = false ∧
    set.Contains (Some 1%positive) "bar"
      (set.ExpireAll (fun _ => 111) (Some 1%positive) σ1) = false.
Proof.
  assert (100 + 10 <= Int64.max_int) as Hfit by (unfold Int64.max_int; lia).
  split; [lia|]. split; [lia|]. split; [exact Hfit|]. split; [lia|].
  apply (Add_then_expires 100 111 1%positive "bar" 10 store_foo); [lia | lia | exact Hfit | lia].
Defined.

Lemma Add_nonpositive_timestamp_witness :
  0 < 50 ∧ Int64.min_int <= -100 ∧ -100 + 50 <= 0 ∧
  ∃ σ1, set.Add (-100) (Some 1%positive) "bar" 50 store_foo = Ok σ1 ∧
    contents (Some 1%positive) σ1 !! "bar" = Some (-100 + 50) ∧
    ∀ now', set.Expired now' (Some 1%positive) "bar" σ1 = false.
Proof.
  assert (Int64.min_int <= -100) as Hmin by (unfold Int64.min_int; lia).
  split; [lia|]. split; [exact Hmin|]. split; [lia|].
  apply (Add_nonpositive_timestamp (-100) 1%positive "bar" 50 store_foo); [lia | exact Hmin | lia].
Defined.

Lemma newSet_fresh_witness :
  set.newSet store_foo = (<[2%positive := ∅]> store_foo, Some 2%positive) ∧
  1%positive ∈ dom store_foo ∧
  contents (Some 2%positive) (<[2%positive := ∅]> store_foo) = (∅ : gmap string Z) ∧
  contents (Some 1%positive) (<[2%positive := ∅]> store_foo)
    = contents (Some 1%positive) store_foo.
Proof.
  assert (set.newSet store_foo = (<[2%positive := ∅]> store_foo, Some 2%positive))
    as Hnew by reflexivity.
  assert (1%positive ∈ dom store_foo) as Hdom.
  { apply elem_of_dom. by eexists. }
  destruct (newSet_fresh store_foo _ _ 1%positive Hnew Hdom)
    as (_ & _ & Hempty & _ & Hkeep & _).
  split; [exact Hnew|]. split; [exact Hdom|]. split; [exact Hempty | exact Hkeep].
Defined.

Lemma New_spec_witness :
  0 <= 0 ∧ 0 < 1 ∧
  Cache.New 0 store_foo = Panics NonPositiveTicker ∧
  ∃ w, Cache.New 1 store_foo = Ok w ∧ Cache.running w ∧ Cache.Len w = 0%nat.
Proof.
  split; [lia|]. split; [lia|].
  destruct (New_spec 0 store_foo) as [Hpanic _].
  destruct (New_spec 1 store_foo) as [_ Hok].
  split; [apply Hpanic; lia|].
  destruct Hok as (w & Hnew & Hrun & _ & Hlen & _); [lia|].
  exists w. split; [exact Hnew|]. split; [exact Hrun | exact Hlen].
Defined.

Lemma open_cache_calls_return_witness :
  Cache.running cache_foo ∧ Cache.c_set cache_foo = Some 1%positive ∧
  forallb data_call
    [Cache.CallAdd 100 "bar" 10; Cache.CallDelete "foo";
     Cache.CallExpireAll (fun _ => 200); Cache.CallClear] = true ∧
  ∃ w', Cache.run
          [Cache.CallAdd 100 "bar" 10; Cache.CallDelete "foo";
           Cache.CallExpireAll (fun _ => 200); Cache.CallClear] cache_foo = Ok w' ∧
        Cache.running w' ∧ ∃ w'', Cache.Close w' = Ok w''.
Proof.
  assert (Cache.running cache_foo) as Hrun by (split; reflexivity).
  split; [exact Hrun|]. split; [reflexivity|]. split; [reflexivity|].
  destruct (open_cache_calls_return
              [Cache.CallAdd 100 "bar" 10; Cache.CallDelete "foo";
               Cache.CallExpireAll (fun _ => 200); Cache.CallClear]
              cache_foo 1%positive Hrun eq_refl eq_refl)
    as (w' & Hok & Hrun' & _ & _ & Hclose).
  exists w'. split; [exact Hok|]. split; [exact Hrun' | exact Hclose].
Defined.

Lemma closed_cache_final_witness :
  Cache.Close cache_foo
    = Ok (Cache.World store_foo None ChanClosed Returned) ∧
  (∃ p, Cache.run [Cache.CallDelete "foo"; Cache.CallAdd 100 "bar" 10]
          (Cache.World store_foo None ChanClosed Returned) = Panics p) ∧
  Cache.run [Cache.CallDelete "foo"; Cache.CallClear]
    (Cache.World store_foo None ChanClosed Returned)
    = Ok (Cache.World store_foo None ChanClosed Returned).
Proof.
  assert (Cache.Close cache_foo
          = Ok (Cache.World store_foo None ChanClosed Returned)) as Hclose
    by reflexivity.
  split; [exact Hclose|]. split.
  - destruct (closed_cache_final
                [Cache.CallDelete "foo"; Cache.CallAdd 100 "bar" 10] _ _ Hclose)
      as [_ Hpanic].
    apply Hpanic. reflexivity.
  - destruct (closed_cache_final
                [Cache.CallDelete "foo"; Cache.CallClear] _ _ Hclose)
      as [Hok _].
    apply Hok. split; reflexivity.
Defined.

Lemma sweeper_tick_blocks_witness :
  Guarded.mu guarded_foo = MuFree ∧
  Guarded.sweeper_tick (fun _ => 9) guarded_foo = Blocks ∧
  ∃ g1, Guarded.Lock guarded_foo = Ok g1 ∧
        Guarded.ExpireAll (fun _ => 9) g1 = Blocks ∧
        Guarded.Contains "foo" g1 = Blocks.
Proof.
  assert (Guarded.mu guarded_foo = MuFree) as Hfree by reflexivity.
  destruct (sweeper_tick_blocks (fun _ => 9) guarded_foo) as [Htick Hheld].
  destruct (Hheld Hfree)
    as (g1 & Hlock & _ & _ & Hsweep & _ & _ & _ & _ & Hcontains & _).
  split; [exact Hfree|]. split; [exact Htick|].
  exists g1. split; [exact Hlock|]. split; [exact Hsweep | exact (Hcontains "foo")].
Defined.

Lemma Cache_Add_Delete_Clear_witness :
  Cache.c_set cache_foo = Some 1%positive ∧
  ∃ w1, Cache.Add 100 "bar" 10 cache_foo = Ok w1 ∧
    Cache.Contains "bar" w1 = true ∧
    Cache.Contains "bar" (Cache.Delete "bar" w1) = false ∧
    Cache.Len (Cache.Clear w1) = 0%nat.
Proof.
  split; [reflexivity|].
  destruct (Cache_Add_Delete_Clear 100 "bar" 10 cache_foo 1%positive eq_refl)
    as (w1 & Hadd & Hin & _ & _ & _ & Hdel & Hlen & _).
  exists w1. split; [exact Hadd|]. split; [exact Hin|].
  split; [exact Hdel | exact Hlen].
Defined.

(** ** Where the code departs from the specification *)

(** C2 as the specification has it fails: the second [Close] on a cache
    made by [New] is no no-op, it panics. *)
Lemma Close_twice_counterexample :
  ∃ w0 w1 : Cache.world string,
    Cache.New 1 ∅ = Ok w0 ∧ Cache.Close w0 = Ok w1 ∧
    Cache.Close w1 = Panics SendOnClosedChan ∧
    Cache.Close w1 ≠ Ok w1.
Proof.
  eexists. eexists. split; [reflexivity|]. split; [reflexivity|].
  split; [reflexivity | discriminate].
Qed.

(** C5 as the specification has it fails for a duration too long for the
    timestamp to fit: [Add("foo", MaxInt64)] at clock reading [t0] stores
    the wrapped value, which is negative, not [t0 + MaxInt64]. *)
Lemma Add_spec_counterexample :
  Int64.in_range t0 ∧ Int64.in_range Int64.max_int ∧ 0 < Int64.max_int ∧
  ∃ σ', set.Add t0 (Some 1%positive) "foo" Int64.max_int store_foo = Ok σ' ∧
    contents (Some 1%positive) σ' !! "foo" = Some (t0 + Int64.max_int - 2 ^ 64) ∧
    t0 + Int64.max_int - 2 ^ 64 < 0 ∧
    contents (Some 1%positive) σ' !! "foo" ≠ Some (t0 + Int64.max_int).
Proof.
  split; [by vm_compute|]. split; [by vm_compute|]. split; [by vm_compute|].
  destruct (contents_Add t0 1%positive "foo" Int64.max_int store_foo)
    as (σ' & Hadd & Hc & _).
  exists σ'. split; [exact Hadd|].
  assert (contents (Some 1%positive) σ' !! "foo"
          = Some (t0 + Int64.max_int - 2 ^ 64)) as Hlk
    by (etrans; [exact (f_equal (fun t => t !! "foo") Hc)|];
        rewrite lookup_insert_eq; by vm_compute).
  split; [exact Hlk|]. split; [by vm_compute|].
  rewrite Hlk. intros Heq. vm_compute in Heq. discriminate Heq.
Qed.
